(** * quack: snapshot, rotation and rollback around an embedded datastore

    A shallow embedding of [quack.go].  The filesystem under the client's
    root directory and the catalog of the embedded engine are explicit
    state; every call that can fail in the Go code consults a fault oracle,
    so that each early [return err] of the source is a reachable path of
    the model. *)

From Stdlib Require Import ZArith.
From stdpp Require Import gmap strings list sorting fin_maps.

Local Open Scope Z_scope.

(** ** Errors, panics and results *)

(** The calls of the source that can fail for reasons outside the program. *)
Inductive fs_op :=
| OpReadDir | OpRemove | OpCreate | OpMkdirTemp | OpMkdirAll
| OpCreateTemp | OpCopy | OpArchive | OpFileClose | OpExtract.

Inductive engine_op :=
| OpConnect | OpConn | OpOption | OpExport | OpImport | OpShowTables
| OpBeginTx | OpDrop | OpCommit | OpCreateTable | OpCopyFrom
| OpDbClose | OpConnectorClose.

(** Go [error] values returned by the package. *)
Inductive error :=
| ErrRollbackRange (n max : Z)  (* "cannot rollback to last %d snapshot (max: %d)" *)
| ErrNoSnapshot                 (* "no snapshot to rollback to." *)
| ErrNotExist                   (* os.ErrNotExist *)
| ErrFS (op : fs_op)            (* an error of package os or io *)
| ErrZip                        (* archive/zip: not a valid zip file *)
| ErrEngine (op : engine_op).   (* an error of database/sql or the driver *)

(** Run-time panics of Go's slice expressions and index expressions. *)
Inductive panic :=
| SliceBoundsOutOfRange
| IndexOutOfRange.

(** The taxonomy of section 7 of the specification. *)
Inductive error_kind :=
| InvalidArgument | NotFound | IOError | CorruptArchive | EngineError.

Definition kind_of (e : error) : error_kind :=
  match e with
  | ErrRollbackRange _ _ => InvalidArgument
  | ErrNoSnapshot => NotFound
  | ErrNotExist => NotFound
  | ErrFS _ => IOError
  | ErrZip => CorruptArchive
  | ErrEngine _ => EngineError
  end.

(** What a call produces: a value ([err == nil]), an error, or a panic. *)
Inductive res (A : Type) :=
| Ret (a : A)
| Err (e : error)
| Panic (p : panic).
Arguments Ret {A} a.
Arguments Err {A} e.
Arguments Panic {A} p.

(** [os.IsNotExist(err)] *)
Definition IsNotExist {A} (r : res A) : bool :=
  match r with
  | Err ErrNotExist => true
  | _ => false
  end.

(** State passing with Go's early [return err]. *)
Definition M (S A : Type) : Type := S → S * res A.

Definition mret {S A} (a : A) : M S A := λ s, (s, Ret a).
Definition mfail {S A} (e : error) : M S A := λ s, (s, Err e).
Definition mpanic {S A} (p : panic) : M S A := λ s, (s, Panic p).
Definition bind {S A B} (m : M S A) (k : A → M S B) : M S B :=
  λ s, match m s with
       | (s', Ret a) => k a s'
       | (s', Err e) => (s', Err e)
       | (s', Panic p) => (s', Panic p)
       end.

Definition lift {S A} (r : res A) : M S A := λ s, (s, r).

Notation "'do' x <- m ; k" := (bind m (λ x, k))
  (at level 10, x name, m at level 100, k at level 200, only parsing).
Notation "'run' m ; k" := (bind m (λ _, k))
  (at level 10, m at level 100, k at level 200, only parsing).

(** ** Data model *)

(** One JSON object of a record stream. *)
Definition record : Type := string.

(** The catalog of the engine: table name to rows. *)
Abbreviation database := (gmap string (list record)).

(** The bytes of a file of the snapshot directory: nothing written yet, the
    beginning of an archive, or a complete zip of an [EXPORT DATABASE]. *)
Inductive content :=
| Empty
| Truncated
| Archive (d : database).

(** A directory: entry name to file. *)
Abbreviation directory := (gmap string content).

(** What persists under the root directory: the entries of [snapshot/] and
    the tables of [database.ddb]. *)
Record world := World {
  snapshot : directory;
  tables : database
}.

(** The fields [dir] and [n] of the Go struct [Client]; its mutex and its
    engine handles carry no data of their own. *)
Record Client := mkClient {
  c_dir : string;
  c_n : Z
}.

(** The fault oracle: which external calls fail. *)
Record faults := Faults {
  readdir_fails : bool;
  remove_fails : string → bool;
  create_fails : bool;
  mkdirtemp_fails : bool;
  export_fails : bool;
  addfs_fails : bool;
  zipclose_fails : bool;
  fileclose_fails : bool;
  dbclose_fails : bool;
  connectorclose_fails : bool;
  showtables_fails : bool;
  begintx_fails : bool;
  drop_fails : string → bool;
  commit_fails : bool;
  extract_fails : bool;
  import_fails : bool;
  createtemp_fails : bool;
  copy_fails : bool;
  exec_fails : bool;
  mkdirall_fails : bool;
  connector_fails : bool;
  conn_fails : bool
}.

(** No external call fails. *)
Definition no_faults : faults :=
  Faults false (λ _, false) false false false false false false false false
         false false (λ _, false) false false false false false false false
         false false.

(** An external call that either fails with [e] or returns. *)
Definition call {S} (fails : bool) (e : error) : M S unit :=
  if fails then mfail e else mret ().

(** Running a computation on one component of the world. *)
Definition on_snapshot {A} (m : M directory A) : M world A :=
  λ w, let '(d, r) := m (snapshot w) in (World d (tables w), r).

Definition on_tables {A} (m : M database A) : M world A :=
  λ w, let '(t, r) := m (tables w) in (World (snapshot w) t, r).

(** ** Directory manager *)

(** [sort.Strings]: ascending, bytewise. *)
Definition sort_strings (l : list string) : list string :=
  merge_sort String.le l.

(** The names of the entries of a directory, as [os.ReadDir] yields them. *)
Definition entry_names {A} (d : gmap string A) : list string :=
  (map_to_list d).*1.

(** [listDir] *)
Definition listDir (φ : faults) : M directory (list string) :=
  run call (readdir_fails φ) (ErrFS OpReadDir);
  λ d, (d, Ret (sort_strings (entry_names d))).

(** [os.Remove] of an entry of the directory *)
Definition os_Remove (φ : faults) (m : string) : M directory unit :=
  λ d, match d !! m with
       | None => (d, Err ErrNotExist)
       | Some _ => if remove_fails φ m then (d, Err (ErrFS OpRemove))
                   else (delete m d, Ret ())
       end.

(** The loop [for _, m := range ms { if err := os.Remove(...); ... }] *)
Fixpoint remove_each (φ : faults) (ms : list string) : M directory unit :=
  match ms with
  | [] => mret ()
  | m :: ms' => run os_Remove φ m; remove_each φ ms'
  end.

(** The slice expression [l[n:]] *)
Definition slice_from {A} (l : list A) (n : Z) : res (list A) :=
  if bool_decide (0 ≤ n ≤ Z.of_nat (length l)) then Ret (drop (Z.to_nat n) l)
  else Panic SliceBoundsOutOfRange.

(** The index expression [l[i]] *)
Definition index_at {A} (l : list A) (i : Z) : res A :=
  if bool_decide (0 ≤ i) then
    match l !! Z.to_nat i with
    | Some x => Ret x
    | None => Panic IndexOutOfRange
    end
  else Panic IndexOutOfRange.

(** Go's [int] is 64 bits wide here; [len(matches)-n] wraps around. *)
Definition wrap64 (z : Z) : Z := (z + 2^63) mod 2^64 - 2^63.

(** [rotate] *)
Definition rotate (φ : faults) (n : Z) : M directory unit :=
  do matches <- listDir φ;
  if bool_decide (Z.of_nat (length matches) > n) then
    let matches := sort_strings matches in
    do ms <- lift (slice_from matches n);
    remove_each φ ms
  else mret ().

(** ** Archive transfer and the engine's statements *)

(** Writing [c] through the open file named [f] *)
Definition write_file (f : string) (c : content) : M world unit :=
  on_snapshot (λ d, (<[f := c]> d, Ret ())).

(** [dumpAndZip], with the writer [w] being the open file [f] of the
    snapshot directory.  The scratch directory is private to the call and
    removed by the deferred [os.RemoveAll] on every path. *)
Definition dumpAndZip (φ : faults) (f : string) : M world unit :=
  run call (mkdirtemp_fails φ) (ErrFS OpMkdirTemp);
  run call (export_fails φ) (ErrEngine OpExport);
  do exported <- (λ w, (w, Ret (tables w)));
  run write_file f Truncated;
  run call (addfs_fails φ) (ErrFS OpArchive);
  run call (zipclose_fails φ) (ErrFS OpArchive);
  write_file f (Archive exported).

(** [zip.OpenReader] *)
Definition zip_OpenReader (file : string) : M world database :=
  λ w, match snapshot w !! file with
       | None => (w, Err ErrNotExist)
       | Some (Archive d) => (w, Ret d)
       | Some _ => (w, Err ErrZip)
       end.

(** [IMPORT DATABASE]: re-creates every exported table; a table that is
    already in the catalog makes the statement fail. *)
Definition import_database (φ : faults) (d : database) : M database unit :=
  run call (import_fails φ) (ErrEngine OpImport);
  λ t, if bool_decide (dom d ##@{gset string} dom t) then (d ∪ t, Ret ())
       else (t, Err (ErrEngine OpImport)).

(** [unzipAndLoad] *)
Definition unzipAndLoad (φ : faults) (file : string) : M world unit :=
  run call (mkdirtemp_fails φ) (ErrFS OpMkdirTemp);
  do d <- zip_OpenReader file;
  run call (extract_fails φ) (ErrFS OpExtract);
  on_tables (import_database φ d).

(** [showTables] *)
Definition showTables (φ : faults) : M database (list string) :=
  run call (showtables_fails φ) (ErrEngine OpShowTables);
  λ t, (t, Ret (entry_names t)).

(** [tableExists]: [nil] when [table] is listed, [os.ErrNotExist] when it
    is not. *)
Definition tableExists (φ : faults) (table : string) : M database unit :=
  do tbls <- showTables φ;
  if bool_decide (table ∈ tbls) then mret () else mfail ErrNotExist.

(** [CREATE TABLE t AS SELECT * FROM read_json_auto(file)] *)
Definition create_table_as (φ : faults) (table : string) (rs : list record)
  : M database unit :=
  run call (exec_fails φ) (ErrEngine OpCreateTable);
  λ t, match t !! table with
       | Some _ => (t, Err (ErrEngine OpCreateTable))
       | None => (<[table := rs]> t, Ret ())
       end.

(** [COPY t FROM file (FORMAT json)] *)
Definition copy_from (φ : faults) (table : string) (rs : list record)
  : M database unit :=
  run call (exec_fails φ) (ErrEngine OpCopyFrom);
  λ t, match t !! table with
       | Some rows => (<[table := rows ++ rs]> t, Ret ())
       | None => (t, Err (ErrEngine OpCopyFrom))
       end.

(** [insert]; [rs] are the records read from the staged copy of [r]. *)
Definition insert (φ : faults) (table : string) (rs : list record)
  : M database unit :=
  run call (createtemp_fails φ) (ErrFS OpCreateTemp);
  run call (copy_fails φ) (ErrFS OpCopy);
  λ t, let '(t', err) := tableExists φ table t in
       if IsNotExist err then create_table_as φ table rs t'
       else match err with
            | Err e => (t', Err e)
            | Panic p => (t', Panic p)
            | Ret _ => copy_from φ table rs t'
            end.

(** [CREATE OR REPLACE TABLE t AS SELECT DISTINCT * FROM t] *)
Definition dedup (φ : faults) (table : string) : M database unit :=
  run call (exec_fails φ) (ErrEngine OpCreateTable);
  λ t, match t !! table with
       | Some rows => (<[table := remove_dups rows]> t, Ret ())
       | None => (t, Err (ErrEngine OpCreateTable))
       end.

(** ** Transactions *)

(** [tx.QueryContext(ctx, "DROP TABLE t;")] on the transaction's view *)
Definition tx_drop (φ : faults) (table : string) : M database unit :=
  run call (drop_fails φ table) (ErrEngine OpDrop);
  λ tx, match tx !! table with
        | Some _ => (delete table tx, Ret ())
        | None => (tx, Err (ErrEngine OpDrop))
        end.

(** The loop over [tables] in [RollbackSnapshot] *)
Fixpoint drop_each (φ : faults) (tbls : list string) : M database unit :=
  match tbls with
  | [] => mret ()
  | t :: tbls' => run tx_drop φ t; drop_each φ tbls'
  end.

(** [c.db.BeginTx]: the transaction starts from the committed catalog. *)
Definition BeginTx (φ : faults) : M world database :=
  run call (begintx_fails φ) (ErrEngine OpBeginTx);
  λ w, (w, Ret (tables w)).

(** Statements issued on [tx] change its view only; an early return runs
    the deferred [tx.Rollback()], which discards the view. *)
Definition in_tx (tx : database) (m : M database unit) : M world database :=
  λ w, match m tx with
       | (tx', Ret _) => (w, Ret tx')
       | (_, Err e) => (w, Err e)
       | (_, Panic p) => (w, Panic p)
       end.

(** [tx.Commit()]: installs the view, or fails and leaves the catalog as it
    was. *)
Definition Commit (φ : faults) (tx : database) : M world unit :=
  run call (commit_fails φ) (ErrEngine OpCommit);
  λ w, (World (snapshot w) tx, Ret ()).

(** ** Client *)

(** The type [Option] of configuration callbacks, run on a connection. *)
Definition Option : Type := M database unit.

Fixpoint apply_options (options : list Option) : M database unit :=
  match options with
  | [] => mret ()
  | opt :: options' => run opt; apply_options options'
  end.

(** [New] *)
Definition New (φ : faults) (dir : string) (n : Z) (options : list Option)
  : M world Client :=
  run call (mkdirall_fails φ) (ErrFS OpMkdirAll);
  run call (mkdirall_fails φ) (ErrFS OpMkdirAll);
  run call (connector_fails φ) (ErrEngine OpConnect);
  let client := mkClient dir n in
  run call (conn_fails φ) (ErrEngine OpConn);
  run on_tables (apply_options options);
  mret client.

(** [Client.RollbackSnapshot] *)
Definition RollbackSnapshot (φ : faults) (c : Client) (n : Z) : M world unit :=
  if bool_decide (n > c_n c) then mfail (ErrRollbackRange n (c_n c))
  else
    do matches <- on_snapshot (listDir φ);
    if bool_decide (length matches = 0%nat) then mfail ErrNoSnapshot
    else
      do tbls <- on_tables (showTables φ);
      do tx <- BeginTx φ;
      do tx <- in_tx tx (drop_each φ tbls);
      run Commit φ tx;
      let matches := sort_strings matches in
      do m <- lift (index_at matches (Z.of_nat (length matches) - n));
      unzipAndLoad φ m.

(** [Client.Insert] *)
Definition Insert (φ : faults) (c : Client) (table : string)
    (rs : list record) : M world unit :=
  on_tables (insert φ table rs).

(** [Client.Deduplicate] *)
Definition Deduplicate (φ : faults) (c : Client) (table : string)
  : M world unit :=
  on_tables (dedup φ table).

(** [os.Create] of the file [f] of the snapshot directory: the entry exists
    from here on, with no bytes yet. *)
Definition os_Create (φ : faults) (f : string) : M world unit :=
  run call (create_fails φ) (ErrFS OpCreate);
  write_file f Empty.

(** [Client.Close]; [id] is the identifier that [ulid.MustNewDefault] draws. *)
Definition Close (φ : faults) (c : Client) (id : string) : M world unit :=
  run os_Create φ id;
  run dumpAndZip φ id;
  run call (fileclose_fails φ) (ErrFS OpFileClose);
  run on_snapshot (rotate φ (c_n c));
  run call (dbclose_fails φ) (ErrEngine OpDbClose);
  call (connectorclose_fails φ) (ErrEngine OpConnectorClose).

(** A fresh root directory: no snapshot, no table. *)
Definition world0 : world := World ∅ ∅.

(** ** Vocabulary of the properties *)

(** What [listDir] returns for the directory [d] when [os.ReadDir] does not
    fail. *)
Abbreviation listing d := (sort_strings (entry_names d)).

(** The entries that the loop removes before the first failing one. *)
Fixpoint removable (φ : faults) (ms : list string) : list string :=
  match ms with
  | [] => []
  | m :: ms' => if remove_fails φ m then [] else m :: removable φ ms'
  end.

(** The identifier drawn by [Close] sorts strictly after every entry that
    the directory already has: identifiers are monotonic. *)
Definition newer (id : string) (d : directory) : Prop :=
  ∀ x, is_Some (d !! x) → String.le x id ∧ x ≠ id.

(** Successive successful [Close] calls of clients with limit [N], drawing
    the identifiers [ids] in this order; between two of them the tables may
    change in any way. *)
Inductive closes (N : Z) : list string → world → world → Prop :=
| closes_nil w : closes N [] w w
| closes_snoc ids id φ c w w1 t w2 :
    closes N ids w w1 →
    c_n c = N →
    Close φ c id (World (snapshot w1) t) = (w2, Ret ()) →
    closes N (ids ++ [id]) w w2.

(** Identifiers in strictly ascending order *)
Definition ascending (ids : list string) : Prop :=
  StronglySorted (λ a b, String.le a b ∧ a ≠ b) ids.

(** The rows of a table; none when the catalog does not have it. *)
Definition rows_of (t : database) (table : string) : list record :=
  default [] (t !! table).

(** What [select * from table] counts. *)
Definition row_count (w : world) (table : string) : nat :=
  length (rows_of (tables w) table).

(** A sequence of [Insert] calls, each with its table and its records. *)
Fixpoint insert_all (φ : faults) (c : Client)
    (batches : list (string * list record)) : M world unit :=
  match batches with
  | [] => mret ()
  | (table, rs) :: batches' =>
      run Insert φ c table rs; insert_all φ c batches'
  end.


(** ** Concrete worlds, oracles and scenarios *)



(** A snapshot directory with three entries. *)
Definition dir3 : directory :=
  <["01C" := Empty]> (<["01A" := Empty]> (<["01B" := Empty]> ∅)).

(** One snapshot of one table, and the live catalog holding that table. *)
Definition world1 : world :=
  World {["01A" := Archive {["t" := ["r1"]]}]} {["t" := ["r1"]]}.

(** Two snapshots. *)
Definition world2 : world :=
  World (<["01B" := Archive {["t" := ["r1"; "r2"]]}]>
           {["01A" := Archive {["t" := ["r1"]]}]})
        {["t" := ["r1"; "r2"]]}.

(** Two sessions on a fresh root directory: open, insert, close. *)
Definition two_sessions (N : Z) : M world unit :=
  do c <- New no_faults "db" N [];
  run Insert no_faults c "t" ["r1"];
  run Close no_faults c "01A";
  do c <- New no_faults "db" N [];
  run Insert no_faults c "t" ["r2"];
  Close no_faults c "01B".

(** One subtest of [Test_Client]: open with limit 3, insert one record,
    close. *)
Definition session (id : string) : M world unit :=
  do c <- New no_faults "db" 3 [];
  run Insert no_faults c "table_a" ["{name:a,value:10}"];
  Close no_faults c id.

(** The first four subtests, drawing ascending identifiers. *)
Definition four_sessions : M world unit :=
  run session "01A"; run session "01B"; run session "01C"; session "01D".

(** [os.Remove] fails on the entry 01C only. *)
Definition failing_remove : faults :=
  Faults false (λ m, bool_decide (m = "01C")) false false false false false
         false false false false false (λ _, false) false false false false
         false false false false false.

(** An option whose statement the engine rejects. *)
Definition failing_option : Option := mfail (ErrEngine OpOption).

(** An option that creates a table. *)
Definition creating_option : Option :=
  λ t, (<["settings" := []]> t, Ret ()).

(** * Properties *)

(** ** Sorted listings *)

Section listing.
Context {A : Type}.
Implicit Types (d : gmap string A) (l : list string).

Lemma sort_strings_Sorted l : Sorted String.le (sort_strings l).
Proof. apply (Sorted_merge_sort String.le). Qed.

Lemma sort_strings_Permutation l : sort_strings l ≡ₚ l.
Proof. apply (merge_sort_Permutation String.le). Qed.

Lemma sort_strings_length l : length (sort_strings l) = length l.
Proof. by rewrite sort_strings_Permutation. Qed.

Lemma sort_strings_unique l l' :
  Sorted String.le l → l' ≡ₚ l → sort_strings l' = l.
Proof.
  intros Hl Hp. apply (Sorted_unique String.le); auto using sort_strings_Sorted.
  by rewrite sort_strings_Permutation.
Qed.

Lemma sort_strings_id l : Sorted String.le l → sort_strings l = l.
Proof. intros Hl. by apply sort_strings_unique. Qed.

Lemma elem_of_entry_names d x : x ∈ entry_names d ↔ is_Some (d !! x).
Proof.
  unfold entry_names. rewrite list_elem_of_fmap. split.
  - intros [[k v] [-> Hkv]]. apply elem_of_map_to_list in Hkv. by exists v.
  - intros [v Hv]. exists (x, v). split; [done|]. by apply elem_of_map_to_list.
Qed.

Lemma NoDup_entry_names d : NoDup (entry_names d).
Proof. apply NoDup_fst_map_to_list. Qed.

(** A sorted duplicate-free list with the entries of [d] is its listing. *)
Lemma listing_unique d l :
  Sorted String.le l → NoDup l → (∀ x, x ∈ l ↔ is_Some (d !! x)) →
  sort_strings (entry_names d) = l.
Proof.
  intros Hs Hn Hl. apply sort_strings_unique; [done|].
  apply NoDup_Permutation; auto using NoDup_entry_names.
  intros x. by rewrite elem_of_entry_names, Hl.
Qed.

Lemma NoDup_listing d : NoDup (sort_strings (entry_names d)).
Proof. rewrite sort_strings_Permutation. apply NoDup_entry_names. Qed.

Lemma elem_of_listing d x :
  x ∈ sort_strings (entry_names d) ↔ is_Some (d !! x).
Proof. by rewrite sort_strings_Permutation, elem_of_entry_names. Qed.

Lemma listing_length d : length (sort_strings (entry_names d)) = size d.
Proof.
  rewrite sort_strings_length. unfold entry_names.
  by rewrite length_fmap, length_map_to_list.
Qed.
End listing.

(** Dropping a middle segment of a sorted list leaves it sorted. *)
Lemma Sorted_le_app_delete (l1 l2 l3 : list string) :
  Sorted String.le (l1 ++ l2 ++ l3) → Sorted String.le (l1 ++ l3).
Proof.
  intros Hs. apply (Sorted_StronglySorted _) in Hs.
  apply StronglySorted_Sorted.
  apply StronglySorted_app in Hs as (H123 & H1 & H23).
  apply StronglySorted_app in H23 as (_ & H2 & H3).
  apply StronglySorted_app. split_and!; [|done..].
  intros x1 x2 Hx1 Hx2. apply H123; [done|]. apply elem_of_app. by right.
Qed.

(** ** [os.Remove] in a loop *)

Lemma removable_prefix φ ms :
  ms = removable φ ms ++ drop (length (removable φ ms)) ms.
Proof.
  induction ms as [|m ms IH]; simpl; [done|].
  destruct (remove_fails φ m); simpl; [done|]. by rewrite <-IH.
Qed.

Lemma removable_stop φ ms :
  match drop (length (removable φ ms)) ms with
  | [] => True
  | m :: _ => remove_fails φ m = true
  end.
Proof.
  induction ms as [|m ms IH]; simpl; [done|].
  destruct (remove_fails φ m) eqn:Hm; simpl; done.
Qed.

Lemma remove_each_spec φ ms (d : directory) :
  NoDup ms → (∀ x, x ∈ ms → is_Some (d !! x)) →
  (∀ x, (remove_each φ ms d).1 !! x
        = if decide (x ∈ removable φ ms) then None else d !! x) ∧
  (remove_each φ ms d).2
  = match drop (length (removable φ ms)) ms with
    | [] => Ret ()
    | _ :: _ => Err (ErrFS OpRemove)
    end.
Proof.
  revert d. induction ms as [|m ms IH]; intros d Hnd Hin; simpl.
  { by split. }
  apply NoDup_cons in Hnd as [Hm Hnd].
  unfold bind, os_Remove.
  destruct (Hin m) as [c Hc]; [by left|]. rewrite Hc.
  destruct (remove_fails φ m) eqn:Hf; simpl.
  { by split. }
  destruct (IH (delete m d) Hnd) as [IH1 IH2].
  { intros x Hx. rewrite lookup_delete_ne; [|by intros ->]. apply Hin. by right. }
  split; [|done]. intros x. rewrite IH1.
  destruct (decide (x = m)) as [->|Hne].
  - rewrite lookup_delete_eq, (decide_True (P := m ∈ m :: _)) by (by left).
    by case_decide.
  - rewrite lookup_delete_ne by done.
    destruct (decide (x ∈ removable φ ms)) as [Hx|Hx].
    + by rewrite decide_True by (by right).
    + rewrite decide_False; [done|]. by intros [?|?]%elem_of_cons.
Qed.

(** ** [rotate] *)

(** The body of [rotate], with the listing, the second sort and the slice
    bound resolved. *)
Lemma rotate_unfold φ n (d : directory) :
  rotate φ n d =
  if readdir_fails φ then (d, Err (ErrFS OpReadDir))
  else if bool_decide (Z.of_nat (length (listing d)) > n) then
    if bool_decide (0 ≤ n) then remove_each φ (drop (Z.to_nat n) (listing d)) d
    else (d, Panic SliceBoundsOutOfRange)
  else (d, Ret ()).
Proof.
  unfold rotate, listDir, bind, call, lift, mret, mfail.
  destruct (readdir_fails φ); [done|].
  case_bool_decide as Hlen; [|done].
  rewrite (sort_strings_id (listing d)) by apply sort_strings_Sorted.
  unfold slice_from.
  destruct (decide (0 ≤ n)) as [Hn|Hn].
  - rewrite !bool_decide_eq_true_2 by lia. done.
  - rewrite !bool_decide_eq_false_2 by lia. done.
Qed.

(** What [rotate] leaves behind and what it returns, whichever removals
    fail: the first [n] names of the listing stay, then the names after
    them are removed in ascending order up to the first failing one. *)
Lemma rotate_listing φ n (d : directory) :
  readdir_fails φ = false → 0 ≤ n →
  let ms := drop (Z.to_nat n) (listing d) in
  let rest := drop (length (removable φ ms)) ms in
  listing (rotate φ n d).1 = take (Z.to_nat n) (listing d) ++ rest ∧
  (rotate φ n d).2 = match rest with
                     | [] => Ret ()
                     | _ :: _ => Err (ErrFS OpRemove)
                     end.
Proof.
  intros Hrd Hn ms rest. rewrite rotate_unfold, Hrd.
  case_bool_decide as Hlen.
  - rewrite bool_decide_eq_true_2 by done. fold ms.
    assert (Hsplit : listing d = take (Z.to_nat n) (listing d) ++ removable φ ms ++ rest).
    { rewrite <-removable_prefix. symmetry. apply take_drop. }
    pose proof (NoDup_listing d) as Hnd. rewrite Hsplit in Hnd.
    apply NoDup_app in Hnd as (Hnd1 & Hd1 & Hnd2).
    pose proof Hnd2 as Hndms. rewrite <-removable_prefix in Hndms.
    apply NoDup_app in Hnd2 as (Hnd2 & Hd2 & Hnd3).
    destruct (remove_each_spec φ ms d Hndms) as [Hlk Hres].
    { intros x Hx. apply elem_of_listing. rewrite Hsplit, <-removable_prefix.
      apply elem_of_app. by right. }
    split; [|done]. apply listing_unique.
    + apply Sorted_le_app_delete with (removable φ ms). rewrite <-Hsplit.
      apply sort_strings_Sorted.
    + apply NoDup_app. split_and!; [done| |done].
      intros x Hx1 Hx3. apply (Hd1 x Hx1). apply elem_of_app. by right.
    + intros x. rewrite Hlk, elem_of_app. case_decide as Hx.
      * split; [|by intros []]. intros [Hx1|Hx3].
        -- destruct (Hd1 x Hx1). apply elem_of_app. by left.
        -- destruct (Hd2 x Hx Hx3).
      * rewrite <-elem_of_listing. rewrite Hsplit at 2.
        rewrite !elem_of_app. tauto.
  - simpl. assert (Hms : ms = []).
    { apply drop_ge. lia. }
    subst rest. rewrite Hms. simpl. split; [|done].
    rewrite take_ge by lia. by rewrite app_nil_r.
Qed.


(** A [rotate] that returns [nil] had a non-negative limit and leaves the
    first [n] names. *)
Lemma rotate_Ret_listing φ n (d d' : directory) :
  rotate φ n d = (d', Ret ()) →
  0 ≤ n ∧ listing d' = take (Z.to_nat n) (listing d).
Proof.
  intros Hrot. assert (Hrd : readdir_fails φ = false).
  { rewrite rotate_unfold in Hrot. by destruct (readdir_fails φ). }
  assert (Hn : 0 ≤ n).
  { rewrite rotate_unfold, Hrd in Hrot.
    destruct (decide (0 ≤ n)) as [|Hneg]; [done|].
    rewrite bool_decide_eq_true_2, bool_decide_eq_false_2 in Hrot by lia.
    done. }
  split; [done|]. destruct (rotate_listing φ n d Hrd Hn) as [Hl Hr].
  rewrite Hrot in Hl, Hr. simpl in Hl, Hr.
  destruct (drop (length _) _); [|done]. by rewrite app_nil_r in Hl.
Qed.

(** C8: rotation is idempotent.  For every directory, every limit [n] and
    every behaviour of the filesystem, running [rotate] again on the
    directory that [rotate] left yields the same directory (the same set of
    retained entries) and the same result as the first run. *)
Theorem rotate_idempotent φ n (d : directory) :
  rotate φ n (rotate φ n d).1 = rotate φ n d.
Proof.
  destruct (readdir_fails φ) eqn:Hrd.
  { by rewrite !rotate_unfold, Hrd. }
  destruct (decide (0 ≤ n)) as [Hn|Hn]; last first.
  { rewrite (rotate_unfold φ n d), Hrd.
    rewrite bool_decide_eq_true_2, bool_decide_eq_false_2 by lia. simpl.
    rewrite rotate_unfold, Hrd.
    by rewrite bool_decide_eq_true_2, bool_decide_eq_false_2 by lia. }
  destruct (rotate_listing φ n d Hrd Hn) as [Hl Hr].
  pose proof (removable_stop φ (drop (Z.to_nat n) (listing d))) as Hstop.
  destruct (rotate φ n d) as [d1 r] eqn:Hrot. simpl in *.
  rewrite rotate_unfold, Hrd, Hl.
  destruct (drop (length _) _) as [|m rest] eqn:Hrest.
  - rewrite app_nil_r, bool_decide_eq_false_2.
    + by rewrite Hr.
    + rewrite length_take. lia.
  - assert (Hlen : (Z.to_nat n ≤ length (listing d))%nat).
    { destruct (decide (Z.to_nat n ≤ length (listing d))%nat); [done|].
      rewrite (drop_ge (listing d)) in Hrest by lia. done. }
    rewrite bool_decide_eq_true_2, bool_decide_eq_true_2 by
      (rewrite ?length_app, ?length_take; simpl; lia).
    rewrite drop_app_length' by (rewrite length_take; lia).
    assert (Hm : is_Some (d1 !! m)).
    { apply elem_of_listing. rewrite Hl. apply elem_of_app. right. by left. }
    destruct Hm as [c Hc]. simpl. unfold bind, os_Remove.
    by rewrite Hc, Hstop, Hr.
Qed.

(** ** The retention of [rotate] on concrete directories *)

(** C1: on the directory with entries 01A, 01B and 01C and limit 2,
    [rotate] returns [nil] having deleted 01C, the lexicographically
    greatest name, and kept 01A and 01B, the two smallest.  On a directory
    of three entries and limit 3 it deletes nothing. *)
Lemma rotate_deletes_greatest :
  rotate no_faults 2 dir3
  = (<["01A" := Empty]> (<["01B" := Empty]> ∅), Ret ()) ∧
  rotate no_faults 3 dir3 = (dir3, Ret ()).
Proof. split; vm_compute; reflexivity. Qed.

(** ** [Close] and the retention of snapshots *)

(** A [Close] that returns [nil] wrote the complete archive of the tables
    under [id] and then rotated with the client's [n]. *)
Lemma Close_Ret φ c id w w' :
  Close φ c id w = (w', Ret ()) →
  ∃ d', rotate φ (c_n c) (<[id := Archive (tables w)]> (snapshot w)) = (d', Ret ())
        ∧ w' = World d' (tables w).
Proof.
  unfold Close, os_Create, dumpAndZip, write_file, on_snapshot, call, bind,
    mret, mfail.
  destruct (create_fails φ), (mkdirtemp_fails φ), (export_fails φ),
    (addfs_fails φ), (zipclose_fails φ), (fileclose_fails φ); simpl; try done.
  rewrite !insert_insert_eq.
  destruct (rotate φ (c_n c) _) as [d' [[]|e|p]]; simpl; try done.
  destruct (dbclose_fails φ), (connectorclose_fails φ); simpl; try done.
  intros [= <-]. by exists d'.
Qed.

(** Without failing calls [Close] returns [nil] whenever its rotation does. *)
Lemma Close_no_faults c id w :
  Close no_faults c id w
  = let '(d', r) := rotate no_faults (c_n c)
                      (<[id := Archive (tables w)]> (snapshot w)) in
    (World d' (tables w), r).
Proof.
  unfold Close, os_Create, dumpAndZip, write_file, on_snapshot, call, bind,
    mret, mfail.
  simpl. rewrite !insert_insert_eq.
  by destruct (rotate no_faults (c_n c) _) as [d' [[]|e|p]].
Qed.

Lemma listing_insert_newer id f (d : directory) :
  newer id d → listing (<[id := f]> d) = listing d ++ [id].
Proof.
  intros Hnew. apply listing_unique.
  - apply Sorted_snoc; [apply sort_strings_Sorted|].
    assert (Hall : ∀ x, x ∈ listing d → String.le x id).
    { intros x Hx. by apply Hnew, elem_of_listing. }
    destruct (listing d) as [|a l _] using rev_ind; constructor.
    apply Hall, elem_of_app. right. by left.
  - apply NoDup_app. split_and!; [apply NoDup_listing| |apply NoDup_singleton].
    intros x Hx ->%list_elem_of_singleton.
    apply elem_of_listing, Hnew in Hx. by destruct Hx.
  - intros x. rewrite elem_of_app, list_elem_of_singleton, elem_of_listing.
    rewrite lookup_insert. case_decide; subst.
    + split; [by eauto|]. intros _. by right.
    + split; [|by left]. by intros [?|?].
Qed.

(** One successful [Close]: the listing grows by [id] at its end and is cut
    back to its first [n] names. *)
Lemma Close_listing φ c id w w' :
  Close φ c id w = (w', Ret ()) → newer id (snapshot w) →
  0 ≤ c_n c ∧
  listing (snapshot w')
  = take (Z.to_nat (c_n c)) (listing (snapshot w) ++ [id]).
Proof.
  intros (d' & Hrot & ->)%Close_Ret Hnew.
  apply rotate_Ret_listing in Hrot as [Hn Hl]. split; [done|].
  simpl. by rewrite Hl, listing_insert_newer.
Qed.

(** After [M] successful closes on an initially empty snapshot directory it
    lists the first [min M N] identifiers drawn: the oldest snapshots. *)
Lemma closes_keep_oldest N ids w w' :
  closes N ids w w' → snapshot w = ∅ → ascending ids →
  listing (snapshot w') = take (Z.to_nat N) ids.
Proof.
  induction 1 as [w|ids id φ c w w1 t w2 Hcl IH HN Hclose]; intros He Hasc.
  - rewrite He. by rewrite take_nil.
  - apply StronglySorted_app in Hasc as (Hlt & Hasc & _).
    specialize (IH He Hasc).
    apply Close_listing in Hclose as [Hn Hl]; simpl in *.
    + rewrite Hl, IH, HN.
      destruct (decide (Z.to_nat N ≤ length ids)%nat) as [Hle|Hgt].
      * rewrite !take_app_le by (rewrite ?length_take; lia).
        by rewrite take_take, Nat.min_id.
      * by rewrite (take_ge ids) by lia.
    + intros x Hx%elem_of_listing. rewrite IH in Hx.
      apply Hlt; [|by left]. by eapply subseteq_take.
Qed.

(** X6: after [M] successful closes of clients with limit [N], drawing
    ascending identifiers on an initially empty snapshot directory, the
    directory holds [min M N] entries. *)
Lemma closes_count N ids w w' :
  closes N ids w w' → snapshot w = ∅ → ascending ids →
  size (snapshot w') = (length ids `min` Z.to_nat N)%nat.
Proof.
  intros Hcl He Hasc. rewrite <-listing_length.
  rewrite (closes_keep_oldest N ids w w' Hcl He Hasc), length_take. lia.
Qed.

(** C2: with limit 1, two successful closes drawing 01A and then 01B leave
    one entry, [min 2 1], in the snapshot directory, and it is 01A, the
    archive of the first close; the second, most recent snapshot 01B is the
    one that was deleted. *)
Lemma two_closes_keep_first :
  two_sessions 1 world0
  = (World {["01A" := Archive {["t" := ["r1"]]}]} {["t" := ["r1"; "r2"]]},
     Ret ()) ∧
  snapshot (two_sessions 1 world0).1 !! "01B" = None.
Proof. split; vm_compute; reflexivity. Qed.

(** ** [RollbackSnapshot] *)

Lemma drop_each_spec φ tbls (t : database) :
  (∀ x, drop_fails φ x = false) →
  NoDup tbls → (∀ x, x ∈ tbls → is_Some (t !! x)) →
  (∀ x, (drop_each φ tbls t).1 !! x
        = if decide (x ∈ tbls) then None else t !! x) ∧
  (drop_each φ tbls t).2 = Ret ().
Proof.
  intros Hok. revert t. induction tbls as [|a tbls IH]; intros t Hnd Hin; simpl.
  { by split. }
  apply NoDup_cons in Hnd as [Ha Hnd].
  unfold tx_drop, call. rewrite Hok. unfold bind, mret.
  destruct (Hin a) as [rows Hrows]; [by left|]. rewrite Hrows.
  destruct (IH (delete a t) Hnd) as [IH1 IH2].
  { intros x Hx. rewrite lookup_delete_ne; [|by intros ->]. apply Hin. by right. }
  split; [|done]. intros x. rewrite IH1.
  destruct (decide (x = a)) as [->|Hne].
  - rewrite lookup_delete_eq, (decide_True (P := a ∈ a :: _)) by (by left).
    by case_decide.
  - rewrite lookup_delete_ne by done.
    destruct (decide (x ∈ tbls)) as [Hx|Hx].
    + by rewrite decide_True by (by right).
    + rewrite decide_False; [done|]. by intros [?|?]%elem_of_cons.
Qed.

(** Dropping every listed table empties the transaction's view. *)
Lemma drop_each_all φ (t : database) :
  (∀ x, drop_fails φ x = false) →
  drop_each φ (entry_names t) t = (∅, Ret ()).
Proof.
  intros Hok.
  destruct (drop_each_spec φ (entry_names t) t Hok) as [Hlk Hr].
  { apply NoDup_entry_names. }
  { intros x. apply elem_of_entry_names. }
  destruct (drop_each φ (entry_names t) t) as [t' r]. simpl in *. subst r.
  f_equal. apply map_empty. intros x. rewrite Hlk. case_decide as Hx; [done|].
  rewrite elem_of_entry_names in Hx. by apply eq_None_not_Some.
Qed.

(** [RollbackSnapshot] up to the selection of the snapshot, when the
    listing, the catalog query, the start of the transaction and the drops
    do not fail. *)
Lemma RollbackSnapshot_unfold φ c n w :
  n ≤ c_n c → readdir_fails φ = false → showtables_fails φ = false →
  begintx_fails φ = false → (∀ x, drop_fails φ x = false) →
  RollbackSnapshot φ c n w =
  if bool_decide (length (listing (snapshot w)) = 0%nat)
  then (w, Err ErrNoSnapshot)
  else if commit_fails φ then (w, Err (ErrEngine OpCommit))
  else match index_at (listing (snapshot w))
               (Z.of_nat (length (listing (snapshot w))) - n) with
       | Ret m => unzipAndLoad φ m (World (snapshot w) ∅)
       | Err e => (World (snapshot w) ∅, Err e)
       | Panic p => (World (snapshot w) ∅, Panic p)
       end.
Proof.
  intros Hn Hrd Hst Hbt Hdr. destruct w as [d t].
  unfold RollbackSnapshot. rewrite bool_decide_eq_false_2 by lia.
  unfold on_snapshot, on_tables, listDir, showTables, BeginTx, in_tx,
    Commit, call, lift, bind, mret, mfail.
  rewrite Hrd, Hst, Hbt. simpl.
  case_bool_decide; [done|]. rewrite drop_each_all by done.
  destruct (commit_fails φ); [done|]. simpl.
  rewrite (sort_strings_id (listing d)) by apply sort_strings_Sorted.
  by destruct (index_at _ _).
Qed.

Lemma listing_nonempty (d : directory) :
  d ≠ ∅ → length (listing d) ≠ 0%nat.
Proof. rewrite listing_length. intros Hd Hs. by apply map_size_empty_iff in Hs. Qed.




(** Whatever else fails, a failing commit leaves the world untouched. *)
Lemma RollbackSnapshot_commit_fails_world φ c n w :
  commit_fails φ = true → (RollbackSnapshot φ c n w).1 = w.
Proof.
  intros Hc. destruct w as [d t]. unfold RollbackSnapshot.
  case_bool_decide; [done|].
  unfold on_snapshot, on_tables, listDir, showTables, BeginTx, in_tx,
    Commit, call, lift, bind, mret, mfail.
  rewrite Hc. destruct (readdir_fails φ); [done|]. simpl.
  case_bool_decide; [done|].
  destruct (showtables_fails φ); [done|]. simpl.
  destruct (begintx_fails φ); [done|]. simpl.
  by destruct (drop_each φ (entry_names t) t) as [tx [[]|e|p]].
Qed.





(** C3: with limit 3, [RollbackSnapshot 0] is not rejected: it drops and
    commits the drop of every table, then panics on the index [len - 0],
    leaving the catalog empty. *)
Lemma RollbackSnapshot_zero_not_rejected :
  RollbackSnapshot no_faults (mkClient "db" 3) 0 world1
  = (World (snapshot world1) ∅, Panic IndexOutOfRange).
Proof. vm_compute. reflexivity. Qed.

(** C9: with limit 3, index 2 and a single snapshot, the selection index
    [len - n] is [-1], outside [0, len): the index expression panics, after
    the drop of every table was committed. *)
Lemma RollbackSnapshot_index_out_of_bounds :
  Z.of_nat (length (listing (snapshot world1))) - 2 = -1 ∧
  index_at (listing (snapshot world1)) (-1) = Panic IndexOutOfRange ∧
  RollbackSnapshot no_faults (mkClient "db" 3) 2 world1
  = (World (snapshot world1) ∅, Panic IndexOutOfRange).
Proof. split_and!; vm_compute; reflexivity. Qed.



(** ** Failure of the dump during [Close] *)





(** ** [Insert] *)

Lemma tableExists_spec φ table (t : database) :
  showtables_fails φ = false →
  tableExists φ table t
  = (t, match t !! table with Some _ => Ret () | None => Err ErrNotExist end).
Proof.
  intros Hst. unfold tableExists, showTables, call. rewrite Hst.
  unfold bind, mret, mfail. simpl.
  case_bool_decide as Hin; rewrite elem_of_entry_names in Hin.
  - by destruct Hin as [rows ->].
  - apply eq_None_not_Some in Hin. by rewrite Hin.
Qed.





(** Four inserts of one record each into a fresh database: four rows. *)
Example four_inserts_rows :
  row_count (insert_all no_faults (mkClient "db" 3)
               [("t", ["a"]); ("t", ["a"]); ("t", ["a"]); ("t", ["a"])]
               world0).1 "t" = 4%nat.
Proof. vm_compute. reflexivity. Qed.

(** ** [New] *)




(** ** Go's [int] *)

(** Whether the index [len - n] is within bounds does not depend on the
    wrap-around, so the model computes it in [Z]. *)
Lemma index_in_bounds_wrap (len n : Z) :
  0 ≤ len < 2^63 → - 2^63 ≤ n < 2^63 →
  (0 ≤ wrap64 (len - n) < len ↔ 0 ≤ len - n < len) ∧
  (0 ≤ len - n < len → wrap64 (len - n) = len - n).
Proof.
  intros Hlen Hn. unfold wrap64.
  destruct (decide (len - n < 2^63)) as [Hlt|Hge].
  - rewrite Z.mod_small by lia. split; [|lia].
    replace (len - n + 2^63 - 2^63) with (len - n) by lia. done.
  - assert (Hm : (len - n + 2^63) mod 2^64 = len - n + 2^63 - 2^64).
    { symmetry. apply Z.mod_unique with 1; lia. }
    rewrite Hm. lia.
Qed.

(** ** [Deduplicate] and the scenario of the repository's test *)

(** [Test_Client] through the model: the directory lists 1, 2, 3 and 3
    snapshots after the four closes, the table then has 4 rows, 1 row after
    [Deduplicate], and 3 rows after [RollbackSnapshot 1] with limit 2, as the
    test requires. *)
Example test_client_scenario :
  size (snapshot (session "01A" world0).1) = 1%nat ∧
  size (snapshot ((run session "01A"; session "01B") world0).1) = 2%nat ∧
  size (snapshot ((run session "01A"; run session "01B"; session "01C")
                    world0).1) = 3%nat ∧
  size (snapshot (four_sessions world0).1) = 3%nat ∧
  listing (snapshot (four_sessions world0).1) = ["01A"; "01B"; "01C"] ∧
  row_count (four_sessions world0).1 "table_a" = 4%nat ∧
  row_count ((run four_sessions;
              do c <- New no_faults "db" 2 [];
              Deduplicate no_faults c "table_a") world0).1 "table_a" = 1%nat ∧
  row_count ((run four_sessions;
              do c <- New no_faults "db" 2 [];
              run Deduplicate no_faults c "table_a";
              do c <- New no_faults "db" 2 [];
              RollbackSnapshot no_faults c 1) world0).1 "table_a" = 3%nat.
Proof. repeat split; vm_compute; reflexivity. Qed.

(** * Further properties of the code *)

(** ** [listDir] and [rotate] *)

(** X1: [listDir] never changes the directory; it fails only when
    [os.ReadDir] does, and otherwise returns the names of exactly the
    entries of the directory, each once, in ascending order. *)
Theorem listDir_sorted_entries φ (d : directory) :
  (listDir φ d).1 = d ∧
  match (listDir φ d).2 with
  | Ret l => readdir_fails φ = false ∧ Sorted String.le l ∧ NoDup l ∧
             (∀ x, x ∈ l ↔ is_Some (d !! x)) ∧ length l = size d
  | Err e => readdir_fails φ = true ∧ e = ErrFS OpReadDir
  | Panic _ => False
  end.
Proof.
  unfold listDir, call, bind, mret, mfail.
  destruct (readdir_fails φ); simpl; [done|].
  split_and!; try done.
  - apply sort_strings_Sorted.
  - apply NoDup_listing.
  - apply elem_of_listing.
  - apply listing_length.
Qed.

Lemma removable_subseteq φ ms x : x ∈ removable φ ms → x ∈ ms.
Proof.
  intros Hx. rewrite (removable_prefix φ ms). apply elem_of_app. by left.
Qed.

(** Every lookup in the directory that [rotate] leaves. *)
Lemma rotate_lookup φ n (d : directory) x :
  (rotate φ n d).1 !! x
  = if decide (readdir_fails φ = false ∧ 0 ≤ n ∧
               x ∈ removable φ (drop (Z.to_nat n) (listing d)))
    then None else d !! x.
Proof.
  rewrite rotate_unfold. destruct (readdir_fails φ) eqn:Hrd.
  { rewrite decide_False; [done|]. by intros [? _]. }
  case_bool_decide as Hlen; last first.
  { simpl. rewrite decide_False; [done|]. intros (_ & Hn & Hx).
    rewrite drop_ge in Hx by lia. by apply elem_of_nil in Hx. }
  case_bool_decide as Hn; last first.
  { simpl. rewrite decide_False; [done|]. by intros (_ & ? & _). }
  pose proof (NoDup_listing d) as Hnd.
  rewrite <-(take_drop (Z.to_nat n) (listing d)) in Hnd.
  apply NoDup_app in Hnd as (_ & _ & Hnd).
  destruct (remove_each_spec φ (drop (Z.to_nat n) (listing d)) d Hnd)
    as [Hlk _].
  { intros y Hy. apply elem_of_listing.
    rewrite <-(take_drop (Z.to_nat n) (listing d)). apply elem_of_app. by right. }
  rewrite Hlk. case_decide as Hx.
  - by rewrite decide_True.
  - rewrite decide_False; [done|]. by intros (_ & _ & ?).
Qed.

(** X2: [rotate] only removes entries.  Whatever fails and whatever [n] is,
    an entry of the directory afterwards was there before with the same
    file, and none of the first [n] names of the ascending listing is
    removed. *)
Theorem rotate_only_removes φ n (d : directory) x :
  ((rotate φ n d).1 !! x = None ∨ (rotate φ n d).1 !! x = d !! x) ∧
  (x ∈ take (Z.to_nat n) (listing d) → (rotate φ n d).1 !! x = d !! x).
Proof.
  rewrite rotate_lookup. split.
  - case_decide; auto.
  - intros Hx. rewrite decide_False; [done|].
    intros (_ & _ & Hr%removable_subseteq).
    pose proof (NoDup_listing d) as Hnd.
    rewrite <-(take_drop (Z.to_nat n) (listing d)) in Hnd.
    apply NoDup_app in Hnd as (_ & Hdis & _). by apply (Hdis x).
Qed.

(** X3: a [rotate] that returns [nil] was given a limit [n ≥ 0] and leaves
    [min count n] entries: never more than [n], and all of them when there
    were at most [n]. *)
Theorem rotate_Ret_size φ n (d d' : directory) :
  rotate φ n d = (d', Ret ()) →
  0 ≤ n ∧ size d' = (size d `min` Z.to_nat n)%nat ∧
  (Z.of_nat (size d) ≤ n → d' = d).
Proof.
  intros Hrot. pose proof Hrot as [Hn Hl]%rotate_Ret_listing.
  split_and!; [done| |].
  - rewrite <-!listing_length, Hl, length_take. lia.
  - intros Hle. rewrite rotate_unfold in Hrot.
    destruct (readdir_fails φ); [done|].
    rewrite bool_decide_eq_false_2 in Hrot by (rewrite listing_length; lia).
    by injection Hrot.
Qed.

Lemma rotate_Ret_size_witness :
  rotate no_faults 2 dir3
  = (<["01A" := Empty]> (<["01B" := Empty]> ∅), Ret ()) ∧
  0 ≤ 2 ∧
  size (<["01A" := Empty]> (<["01B" := Empty]> ∅) : directory)
  = (size dir3 `min` Z.to_nat 2)%nat ∧
  (Z.of_nat (size dir3) ≤ 2
   → (<["01A" := Empty]> (<["01B" := Empty]> ∅) : directory) = dir3).
Proof.
  assert (H : rotate no_faults 2 dir3
              = (<["01A" := Empty]> (<["01B" := Empty]> ∅), Ret ())).
  { vm_compute. reflexivity. }
  split; [exact H|]. exact (rotate_Ret_size no_faults 2 dir3 _ H).
Defined.

(** X4: with a negative limit [rotate] panics on the slice expression
    [matches[n:]] once the directory is listed, and removes nothing. *)
Theorem rotate_negative_limit φ n (d : directory) :
  n < 0 → readdir_fails φ = false →
  rotate φ n d = (d, Panic SliceBoundsOutOfRange).
Proof.
  intros Hn Hrd. rewrite rotate_unfold, Hrd.
  by rewrite bool_decide_eq_true_2, bool_decide_eq_false_2 by lia.
Qed.

Lemma rotate_negative_limit_witness :
  -1 < 0 ∧ readdir_fails no_faults = false ∧
  rotate no_faults (-1) dir3 = (dir3, Panic SliceBoundsOutOfRange).
Proof.
  split; [lia|]. split; [reflexivity|].
  apply (rotate_negative_limit no_faults (-1) dir3); [lia | reflexivity].
Defined.

(** X5: the only errors of [rotate] are those of [os.ReadDir] and of a
    failing [os.Remove]; since the names it removes come from the listing,
    it never reports a missing entry.  After a failing removal the entry
    that could not be removed is still there. *)
Theorem rotate_errors φ n (d : directory) e :
  (rotate φ n d).2 = Err e →
  (e = ErrFS OpReadDir ∧ (rotate φ n d).1 = d) ∨
  (e = ErrFS OpRemove ∧
   ∃ m, remove_fails φ m = true ∧ is_Some (d !! m) ∧
        (rotate φ n d).1 !! m = d !! m).
Proof.
  intros He. destruct (readdir_fails φ) eqn:Hrd.
  { left. rewrite rotate_unfold, Hrd in He |- *. simpl in *. by injection He as <-. }
  destruct (decide (0 ≤ n)) as [Hn|Hn]; last first.
  { rewrite rotate_unfold, Hrd in He.
    rewrite bool_decide_eq_true_2, bool_decide_eq_false_2 in He by lia. done. }
  right. destruct (rotate_listing φ n d Hrd Hn) as [Hl Hr].
  pose proof (removable_stop φ (drop (Z.to_nat n) (listing d))) as Hstop.
  pose proof (removable_prefix φ (drop (Z.to_nat n) (listing d))) as Hpre.
  rewrite He in Hr.
  destruct (drop (length _) _) as [|m rest] eqn:Hrest; [done|].
  injection Hr as ->. split; [done|]. exists m.
  assert (Hm : m ∈ listing d).
  { rewrite <-(take_drop (Z.to_nat n) (listing d)), Hpre.
    rewrite !elem_of_app. right. right. by left. }
  split_and!; [done|by apply elem_of_listing|].
  rewrite rotate_lookup. rewrite decide_False; [done|].
  intros (_ & _ & Hin).
  pose proof (NoDup_listing d) as Hnd.
  rewrite <-(take_drop (Z.to_nat n) (listing d)), Hpre in Hnd.
  apply NoDup_app in Hnd as (_ & _ & Hnd).
  apply NoDup_app in Hnd as (_ & Hdis & _).
  apply (Hdis m Hin). by left.
Qed.

Lemma rotate_errors_witness :
  (rotate failing_remove 1 dir3).2 = Err (ErrFS OpRemove) ∧
  ((ErrFS OpRemove = ErrFS OpReadDir ∧ (rotate failing_remove 1 dir3).1 = dir3) ∨
   (ErrFS OpRemove = ErrFS OpRemove ∧
    ∃ m, remove_fails failing_remove m = true ∧ is_Some (dir3 !! m) ∧
         (rotate failing_remove 1 dir3).1 !! m = dir3 !! m)).
Proof.
  assert (H : (rotate failing_remove 1 dir3).2 = Err (ErrFS OpRemove)).
  { vm_compute. reflexivity. }
  split; [exact H|]. exact (rotate_errors failing_remove 1 dir3 _ H).
Defined.

(** ** [Close] *)

Lemma closes_count_witness :
  closes 1 ["01A"; "01B"] world0 (World {["01A" := Archive ∅]} ∅) ∧
  snapshot world0 = ∅ ∧ ascending ["01A"; "01B"] ∧
  size (snapshot (World {["01A" := Archive ∅]} ∅))
  = (length ["01A"; "01B"] `min` Z.to_nat 1)%nat.
Proof.
  assert (H1 : closes 1 ["01A"; "01B"] world0 (World {["01A" := Archive ∅]} ∅)).
  { apply (closes_snoc 1 ["01A"] "01B" no_faults (mkClient "db" 1) world0
             (World {["01A" := Archive ∅]} ∅) ∅);
      [|reflexivity|vm_compute; reflexivity].
    apply (closes_snoc 1 [] "01A" no_faults (mkClient "db" 1) world0 world0 ∅);
      [constructor|reflexivity|vm_compute; reflexivity]. }
  assert (H2 : ascending ["01A"; "01B"]).
  { repeat constructor; try (vm_compute; exact I); discriminate. }
  split; [exact H1|]. split; [reflexivity|]. split; [exact H2|].
  exact (closes_count 1 _ world0 _ H1 eq_refl H2).
Defined.

(** X7: [Close] never changes a table, whatever it returns. *)
Theorem Close_tables_unchanged φ c id w :
  tables (Close φ c id w).1 = tables w.
Proof.
  unfold Close, os_Create, dumpAndZip, write_file, on_snapshot, call, bind,
    mret, mfail.
  destruct (create_fails φ), (mkdirtemp_fails φ), (export_fails φ),
    (addfs_fails φ), (zipclose_fails φ), (fileclose_fails φ); simpl; try done.
  destruct (rotate φ (c_n c) _) as [d' [[]|e|p]]; simpl; try done.
  by destruct (dbclose_fails φ), (connectorclose_fails φ).
Qed.

(** X8: after a [Close] that returns [nil] the client's limit is not
    negative, the snapshot directory holds at most that many entries (the
    count with the new file, cut to the limit), and every entry is either
    the new file, holding the complete archive of the tables, or an older
    entry with its file unchanged. *)
Theorem Close_Ret_directory φ c id w w' :
  Close φ c id w = (w', Ret ()) →
  0 ≤ c_n c ∧
  size (snapshot w')
  = (size (<[id := Archive (tables w)]> (snapshot w)) `min` Z.to_nat (c_n c))%nat ∧
  ∀ x f, snapshot w' !! x = Some f →
         (x = id ∧ f = Archive (tables w)) ∨
         (x ≠ id ∧ snapshot w !! x = Some f).
Proof.
  intros (d' & Hrot & ->)%Close_Ret. simpl.
  pose proof Hrot as [Hn Hl]%rotate_Ret_listing.
  split_and!; [done| |].
  - rewrite <-!listing_length, Hl, length_take. lia.
  - intros x f Hx.
    pose proof (rotate_lookup φ (c_n c)
                  (<[id := Archive (tables w)]> (snapshot w)) x) as Hlk.
    rewrite Hrot in Hlk. simpl in Hlk. rewrite Hx in Hlk.
    case_decide; [done|]. symmetry in Hlk.
    apply lookup_insert_Some in Hlk as [[-> <-]|[Hne Hlk]]; auto.
Qed.

Lemma Close_Ret_directory_witness :
  Close no_faults (mkClient "db" 3) "01B" world1
  = (World (<["01B" := Archive (tables world1)]> (snapshot world1))
           (tables world1), Ret ()) ∧
  0 ≤ c_n (mkClient "db" 3) ∧
  size (<["01B" := Archive (tables world1)]> (snapshot world1))
  = (size (<["01B" := Archive (tables world1)]> (snapshot world1))
       `min` Z.to_nat (c_n (mkClient "db" 3)))%nat ∧
  ∀ x f, <["01B" := Archive (tables world1)]> (snapshot world1) !! x = Some f →
         (x = "01B" ∧ f = Archive (tables world1)) ∨
         (x ≠ "01B" ∧ snapshot world1 !! x = Some f).
Proof.
  assert (H : Close no_faults (mkClient "db" 3) "01B" world1
              = (World (<["01B" := Archive (tables world1)]> (snapshot world1))
                       (tables world1), Ret ())).
  { vm_compute. reflexivity. }
  split; [exact H|].
  exact (Close_Ret_directory no_faults (mkClient "db" 3) "01B" world1 _ H).
Defined.

(** X9: on a client made with a negative [n], a [Close] without failing
    calls writes the complete snapshot and then panics in the rotation; the
    snapshot stays and the engine handles are not closed. *)
Theorem Close_negative_limit c id w :
  c_n c < 0 →
  Close no_faults c id w
  = (World (<[id := Archive (tables w)]> (snapshot w)) (tables w),
     Panic SliceBoundsOutOfRange).
Proof.
  intros Hn. rewrite Close_no_faults, rotate_unfold. simpl.
  by rewrite bool_decide_eq_true_2, bool_decide_eq_false_2 by lia.
Qed.

Lemma Close_negative_limit_witness :
  c_n (mkClient "db" (-2)) < 0 ∧
  Close no_faults (mkClient "db" (-2)) "01B" world1
  = (World (<["01B" := Archive (tables world1)]> (snapshot world1))
           (tables world1),
     Panic SliceBoundsOutOfRange).
Proof.
  split; [simpl; lia|].
  apply (Close_negative_limit (mkClient "db" (-2)) "01B" world1). simpl. lia.
Defined.

(** ** [RollbackSnapshot] and [unzipAndLoad] *)

(** A loop of drops that returns [nil] removed every listed table. *)
Lemma drop_each_Ret φ tbls (t tx : database) :
  drop_each φ tbls t = (tx, Ret ()) →
  ∀ x, tx !! x = if decide (x ∈ tbls) then None else t !! x.
Proof.
  revert t. induction tbls as [|a tbls IH]; intros t; simpl.
  { by intros [= <-] x. }
  unfold tx_drop, call, bind, mret, mfail.
  destruct (drop_fails φ a); simpl; [done|].
  destruct (t !! a) eqn:Ha; simpl; [|done].
  intros Hd x. rewrite (IH _ Hd x).
  destruct (decide (x = a)) as [->|Hne].
  - rewrite lookup_delete_eq, (decide_True (P := a ∈ a :: _)) by (by left).
    by case_decide.
  - rewrite lookup_delete_ne by done.
    destruct (decide (x ∈ tbls)) as [Hx|Hx].
    + by rewrite decide_True by (by right).
    + rewrite decide_False; [done|]. by intros [?|?]%elem_of_cons.
Qed.

Lemma drop_each_Ret_empty φ (t tx : database) :
  drop_each φ (entry_names t) t = (tx, Ret ()) → tx = ∅.
Proof.
  intros Hd. apply map_empty. intros x. rewrite (drop_each_Ret _ _ _ _ Hd).
  case_decide as Hx; [done|].
  rewrite elem_of_entry_names in Hx. by apply eq_None_not_Some.
Qed.

(** X10: [unzipAndLoad] is all or nothing.  It never changes the snapshot
    directory, it changes the tables only when it returns [nil], and a file
    that is empty or truncated makes it fail as a corrupt archive once the
    scratch directory is made. *)
Theorem unzipAndLoad_all_or_nothing φ file w :
  snapshot (unzipAndLoad φ file w).1 = snapshot w ∧
  ((unzipAndLoad φ file w).2 = Ret () ∨ (unzipAndLoad φ file w).1 = w) ∧
  (mkdirtemp_fails φ = false →
   snapshot w !! file = Some Empty ∨ snapshot w !! file = Some Truncated →
   unzipAndLoad φ file w = (w, Err ErrZip) ∧ kind_of ErrZip = CorruptArchive) ∧
  (mkdirtemp_fails φ = false → snapshot w !! file = None →
   unzipAndLoad φ file w = (w, Err ErrNotExist)).
Proof.
  destruct w as [s t].
  unfold unzipAndLoad, zip_OpenReader, on_tables, import_database, call, bind,
    mret, mfail. simpl.
  destruct (mkdirtemp_fails φ); simpl.
  { split_and!; auto; done. }
  destruct (s !! file) as [[| |d]|] eqn:Hf; simpl;
    try (split_and!; auto; try done; by intros _ [|]).
  destruct (extract_fails φ); simpl.
  { split_and!; auto; try done. by intros _ [|]. }
  destruct (import_fails φ); simpl.
  { split_and!; auto; try done. by intros _ [|]. }
  destruct (bool_decide (dom d ## dom t)); simpl;
    split_and!; auto; try done; by intros _ [|].
Qed.

(** X11: [RollbackSnapshot] never changes the snapshot directory, whatever
    it returns. *)
Theorem RollbackSnapshot_snapshot_unchanged φ c n w :
  snapshot (RollbackSnapshot φ c n w).1 = snapshot w.
Proof.
  destruct w as [d t]. unfold RollbackSnapshot.
  case_bool_decide; [done|].
  unfold unzipAndLoad, on_snapshot, on_tables, listDir, showTables,
    BeginTx, in_tx, Commit, zip_OpenReader, import_database, index_at,
    call, lift, bind, mret, mfail.
  destruct (readdir_fails φ); simpl; [done|].
  case_bool_decide; simpl; [done|].
  destruct (showtables_fails φ); simpl; [done|].
  destruct (begintx_fails φ); simpl; [done|].
  destruct (drop_each φ (entry_names t) t) as [tx [[]|e'|p]]; simpl; try done.
  destruct (commit_fails φ); simpl; [done|].
  destruct (bool_decide (0 ≤ _)); simpl; [|done].
  destruct (_ !! Z.to_nat _) as [m|]; simpl; [|done].
  destruct (mkdirtemp_fails φ); simpl; [done|].
  destruct (d !! m) as [[| |a]|]; simpl; try done.
  destruct (extract_fails φ); simpl; [done|].
  destruct (import_fails φ); simpl; [done|].
  by destruct (bool_decide (dom _ ## _)).
Qed.

(** X13: on an empty snapshot directory [RollbackSnapshot], for an index
    that is not above the limit, fails with the not-found error before it
    queries or drops anything; the world is as it was. *)
Theorem RollbackSnapshot_empty_directory φ c n w :
  n ≤ c_n c → readdir_fails φ = false → snapshot w = ∅ →
  RollbackSnapshot φ c n w = (w, Err ErrNoSnapshot) ∧
  kind_of ErrNoSnapshot = NotFound.
Proof.
  intros Hn Hrd He. split; [|done]. destruct w as [d t]. simpl in He. subst d.
  unfold RollbackSnapshot. rewrite bool_decide_eq_false_2 by lia.
  unfold on_snapshot, listDir, call, bind, mret, mfail. rewrite Hrd. simpl.
  unfold entry_names. by rewrite map_to_list_empty.
Qed.

Lemma RollbackSnapshot_empty_directory_witness :
  1 ≤ c_n (mkClient "db" 3) ∧ readdir_fails no_faults = false ∧
  snapshot world0 = ∅ ∧
  RollbackSnapshot no_faults (mkClient "db" 3) 1 world0
  = (world0, Err ErrNoSnapshot) ∧
  kind_of ErrNoSnapshot = NotFound.
Proof.
  split; [simpl; lia|]. split; [reflexivity|]. split; [reflexivity|].
  apply (RollbackSnapshot_empty_directory no_faults (mkClient "db" 3) 1 world0);
    [simpl; lia | reflexivity | reflexivity].
Defined.

(** X14: the catalog after [RollbackSnapshot] is never partially dropped.
    When the call returns [nil] the tables are exactly those of an intact
    archive of the snapshot directory; otherwise the world is as it was, or
    the catalog is empty. *)
Theorem RollbackSnapshot_catalog_outcomes φ c n w :
  ((RollbackSnapshot φ c n w).2 = Ret () →
   ∃ m d, snapshot w !! m = Some (Archive d) ∧
          tables (RollbackSnapshot φ c n w).1 = d) ∧
  ((RollbackSnapshot φ c n w).2 ≠ Ret () →
   (RollbackSnapshot φ c n w).1 = w ∨
   tables (RollbackSnapshot φ c n w).1 = ∅).
Proof.
  destruct w as [d t]. unfold RollbackSnapshot.
  case_bool_decide; [by split; [|left]|].
  unfold unzipAndLoad, on_snapshot, on_tables, listDir, showTables,
    BeginTx, in_tx, Commit, zip_OpenReader, import_database, index_at,
    call, lift, bind, mret, mfail.
  destruct (readdir_fails φ); simpl; [by split; [|left]|].
  case_bool_decide; simpl; [by split; [|left]|].
  destruct (showtables_fails φ); simpl; [by split; [|left]|].
  destruct (begintx_fails φ); simpl; [by split; [|left]|].
  destruct (drop_each φ (entry_names t) t) as [tx [[]|e'|p]] eqn:Hdrop;
    simpl; [|by split; [|left]..].
  apply drop_each_Ret_empty in Hdrop as ->.
  destruct (commit_fails φ); simpl; [by split; [|left]|].
  destruct (bool_decide (0 ≤ _)); simpl; [|by split; [|right]].
  destruct (_ !! Z.to_nat _) as [m|]; simpl; [|by split; [|right]].
  destruct (mkdirtemp_fails φ); simpl; [by split; [|right]|].
  destruct (d !! m) as [[| |a]|] eqn:Hm; simpl; try by split; [|right].
  destruct (extract_fails φ); simpl; [by split; [|right]|].
  destruct (import_fails φ); simpl; [by split; [|right]|].
  destruct (bool_decide (dom _ ## _)); simpl; [|by split; [|right]].
  split; [|done]. intros _. exists m, a. split; [done|].
  by rewrite (right_id_L ∅ (∪)).
Qed.

(** X15: an index that passes the check [n ≤ N] but is not within
    [1 .. len] makes [RollbackSnapshot] panic on the index expression after
    the drop of every table was committed: the catalog is left empty. *)
Theorem RollbackSnapshot_out_of_range_panics φ c n w :
  n ≤ c_n c → snapshot w ≠ ∅ →
  n ≤ 0 ∨ Z.of_nat (size (snapshot w)) < n →
  readdir_fails φ = false → showtables_fails φ = false →
  begintx_fails φ = false → (∀ x, drop_fails φ x = false) →
  commit_fails φ = false →
  RollbackSnapshot φ c n w = (World (snapshot w) ∅, Panic IndexOutOfRange).
Proof.
  intros Hn Hne Hout Hrd Hst Hbt Hdr Hc.
  rewrite RollbackSnapshot_unfold, Hc by done.
  rewrite bool_decide_eq_false_2 by by apply listing_nonempty.
  rewrite <-listing_length in Hout. unfold index_at.
  case_bool_decide as Hi; [|done].
  rewrite (proj2 (lookup_ge_None _ _)); [done|]. lia.
Qed.

Lemma RollbackSnapshot_out_of_range_panics_witness :
  -1 ≤ c_n (mkClient "db" 3) ∧ snapshot world2 ≠ ∅ ∧
  (-1 ≤ 0 ∨ Z.of_nat (size (snapshot world2)) < -1) ∧
  RollbackSnapshot no_faults (mkClient "db" 3) (-1) world2
  = (World (snapshot world2) ∅, Panic IndexOutOfRange).
Proof.
  assert (Hne : snapshot world2 ≠ ∅).
  { intros He. apply (f_equal (λ d : directory, d !! "01A")) in He.
    vm_compute in He. discriminate. }
  split; [simpl; lia|]. split; [exact Hne|]. split; [left; lia|].
  apply (RollbackSnapshot_out_of_range_panics no_faults (mkClient "db" 3) (-1)
           world2); [simpl; lia | exact Hne | left; lia | reflexivity..].
Defined.

(** ** Round trips *)





(** ** [tableExists], [insert], [dedup] *)

(** X18: [tableExists] never changes the catalog; it returns [nil] exactly
    when the catalog query succeeds and lists the table, and an error that
    [os.IsNotExist] recognises exactly when the query succeeds and does not
    list it. *)
Theorem tableExists_iff φ table (t : database) :
  (tableExists φ table t).1 = t ∧
  ((tableExists φ table t).2 = Ret ()
   ↔ showtables_fails φ = false ∧ is_Some (t !! table)) ∧
  (IsNotExist (tableExists φ table t).2 = true
   ↔ showtables_fails φ = false ∧ t !! table = None).
Proof.
  destruct (showtables_fails φ) eqn:Hst.
  - unfold tableExists, showTables, call, bind, mret, mfail. rewrite Hst.
    simpl. split_and!; [done|split; [done|by intros [? _]]..].
  - rewrite tableExists_spec by done. simpl.
    destruct (t !! table) as [rows|]; simpl.
    + split_and!; [done|split; eauto|split; [done|by intros [_ ?]]].
    + split_and!; [done|split; [done|by intros [_ [? ?]]]|done].
Qed.




(** ** [New] *)

(** X21: the options run in order on the fresh connection and the first one
    that fails aborts [New] with its error: no client is returned, the
    later options do not run, and what the earlier options did stays. *)
Theorem New_option_failure φ dir n opts bad opts' w t1 t2 e :
  mkdirall_fails φ = false → connector_fails φ = false →
  conn_fails φ = false →
  apply_options opts (tables w) = (t1, Ret ()) → bad t1 = (t2, Err e) →
  New φ dir n (opts ++ bad :: opts') w = (World (snapshot w) t2, Err e).
Proof.
  intros Hmk Hcn Hco Hopts Hbad.
  unfold New, on_tables, call. rewrite Hmk, Hcn, Hco. unfold bind, mret. simpl.
  assert (Happ : apply_options (opts ++ bad :: opts') (tables w) = (t2, Err e)).
  { clear Hmk Hcn Hco. revert Hopts. generalize (tables w) as t.
    induction opts as [|o opts IH]; intros t; simpl.
    - intros [= ->]. unfold bind. by rewrite Hbad.
    - unfold bind. destruct (o t) as [t' [[]|e'|p]]; try done. apply IH. }
  by rewrite Happ.
Qed.

Lemma New_option_failure_witness :
  mkdirall_fails no_faults = false ∧ connector_fails no_faults = false ∧
  conn_fails no_faults = false ∧
  apply_options [creating_option] (tables world0)
  = ({["settings" := []]}, Ret ()) ∧
  failing_option {["settings" := []]}
  = ({["settings" := []]}, Err (ErrEngine OpOption)) ∧
  New no_faults "db" 3 ([creating_option] ++ failing_option :: [creating_option])
    world0
  = (World (snapshot world0) {["settings" := []]}, Err (ErrEngine OpOption)).
Proof.
  do 5 (split; [reflexivity|]).
  apply (New_option_failure no_faults "db" 3 [creating_option] failing_option
           [creating_option] world0 {["settings" := []]} {["settings" := []]}
           (ErrEngine OpOption)); reflexivity.
Defined.
